(** * monotime: monotonic time arithmetic and the timerfd ticker

    A shallow embedding of [src/mono.go] and [src/main.go].

    The Go sources declare the timestamp three times ([MonoTime] over
    [time.Duration], [MonoTime] over [MonoDuration], and [Time] over
    [time.Duration]); every one of them is an [int64] and the method
    bodies are the same text, so the arithmetic is embedded once.
    An [int64] is a [Z] in the range [min_int64 .. max_int64]; every
    Go operator that can leave the range is followed by [wrap64]. *)

From Stdlib Require Import ZArith NArith Lia List Bool String.
From Stdlib.Strings Require Import Byte.
Import ListNotations.
Local Open Scope Z_scope.

(** ** 64-bit signed integers *)

Module Int64.

Definition modulus : Z := 2 ^ 64.
Definition half_modulus : Z := 2 ^ 63.
Definition min_int64 : Z := - half_modulus.
Definition max_int64 : Z := half_modulus - 1.

(** Two's-complement reduction of an exact integer to [int64]. *)
Definition wrap64 (z : Z) : Z := (z + half_modulus) mod modulus - half_modulus.

Definition in_int64 (z : Z) : Prop := min_int64 <= z <= max_int64.

(** Go's [+], [-], unary [-], [*] and [%] on [int64].  [%] truncates toward
    zero, which is [Z.rem]; its result never leaves the range. *)
Definition add (a b : Z) : Z := wrap64 (a + b).
Definition sub (a b : Z) : Z := wrap64 (a - b).
Definition neg (a : Z) : Z := wrap64 (- a).
Definition mul (a b : Z) : Z := wrap64 (a * b).
Definition rem (a b : Z) : Z := Z.rem a b.

End Int64.

Import Int64.

(** ** MonoTime and its durations ([src/mono.go], [src/main.go]) *)

Definition MonoTime : Type := Z.
Definition Duration : Type := Z.

(** [func (t MonoTime) Add(d Duration) MonoTime { return t + MonoTime(d) }] *)
Definition Add (t : MonoTime) (d : Duration) : MonoTime := add t d.

(** [func (t MonoTime) Sub(tt MonoTime) Duration { return Duration(t - tt) }] *)
Definition Sub (t tt : MonoTime) : Duration := sub t tt.

(** [Round]: [d <= 0] returns [t]; otherwise [r := Duration(t) % d] and
    [t.Add(-r)] when [r*2 <= d], [t.Add(d - r)] when not. *)
Definition Round (t : MonoTime) (d : Duration) : MonoTime :=
  if d <=? 0 then t
  else
    let r := rem t d in
    if mul r 2 <=? d then Add t (neg r)
    else Add t (sub d r).

(** [Truncate]: [d <= 0] returns [t]; otherwise [t.Add(-(Duration(t) % d))]. *)
Definition Truncate (t : MonoTime) (d : Duration) : MonoTime :=
  if d <=? 0 then t
  else Add t (neg (rem t d)).

(** [MonoDuration.Round] and [MonoDuration.Truncate] of [src/main.go]
    convert the receiver to a [MonoTime] and call the method above. *)
Module MonoDuration.
Definition Round (d m : Duration) : Duration := Round d m.
Definition Truncate (d m : Duration) : Duration := Truncate d m.
End MonoDuration.

(** ** Go errors and panics *)

(** The error values the two files can meet.  [ErrClosed] is the sentinel
    [os.ErrClosed]; [Errorf msg e] is [fmt.Errorf(msg + ": %w", e)]. *)
Inductive error : Type :=
| Errno (n : Z)
| ErrClosed
| EOF
| PathError (op path : string) (err : error)
| Errorf (msg : string) (wrapped : error).

(** [err == os.ErrClosed] on an [error] interface value ([None] is [nil]). *)
Definition is_ErrClosed (err : option error) : bool :=
  match err with
  | Some ErrClosed => true
  | _ => false
  end.

(** A call either returns a value or panics. *)
Inductive result (A : Type) : Type :=
| Returns (a : A)
| Panics (e : error).
Arguments Returns {A} a.
Arguments Panics {A} e.

(** ** Now ([src/mono.go]) *)

Record Timespec : Type := { Sec : Z; Nsec : Z }.

(** [unix.Timespec.Nano]: [int64(ts.Sec)*1e9 + int64(ts.Nsec)]. *)
Definition Nano (ts : Timespec) : Z := add (mul (Sec ts) 1000000000) (Nsec ts).

(** [unix.ClockGettime(CLOCK_MONOTONIC, spec)] is the operating system's:
    given the [Timespec] it is handed, it leaves some [Timespec] behind and
    returns an error or [nil]. *)
Definition clock_gettime : Type := Timespec -> Timespec * option error.

(** [new(unix.Timespec)]. *)
Definition new_Timespec : Timespec := {| Sec := 0; Nsec := 0 |}.

(** The [MonoTime] declaration of [src/mono.go], lines 61-65:
    [_ = unix.ClockGettime(unix.CLOCK_MONOTONIC, spec)]. *)
Module MonoTimeDecl.
Definition Now (ClockGettime : clock_gettime) : result MonoTime :=
  let spec := new_Timespec in
  let '(spec, _) := ClockGettime spec in
  Returns (Nano spec).
End MonoTimeDecl.

(** The [Time] declaration of [src/mono.go], lines 126-134: the error is
    wrapped and raised with [panic]. *)
Module TimeDecl.
Definition Now (ClockGettime : clock_gettime) : result MonoTime :=
  let spec := new_Timespec in
  let '(spec, err) := ClockGettime spec in
  match err with
  | Some e => Panics (Errorf "Error getting monotime from the kernel" e)
  | None => Returns (Nano spec)
  end.
End TimeDecl.

(** ** Ticker.Stop ([src/main.go]) *)

(** [Stop] is [t.stopOnce.Do(func() { t.fd.Close() })].  [sync.Once] is
    Go's: [Do] loads [done] and returns when it is set; otherwise it takes
    the mutex, loads [done] again, and when it is still clear calls the
    function, stores [done] (deferred) and releases the mutex (deferred).
    Each of these is one atomic action of the calling goroutine. *)
Inductive pc : Type :=
| AtLoad      (* o.done.Load() on the fast path *)
| AtLock      (* o.m.Lock() *)
| AtCheck     (* o.done.Load() under the mutex *)
| AtCall      (* f(), that is t.fd.Close() *)
| AtStore     (* deferred o.done.Store(1) *)
| AtUnlock    (* deferred o.m.Unlock() *)
| AtReturned. (* every Stop call of this goroutine has returned *)

(** A goroutine is inside one [Stop] call at [g_pc] and has [g_todo] more
    calls to make after it. *)
Record goroutine : Type := { g_pc : pc; g_todo : nat }.

(** The ticker as [Stop] sees it: the [sync.Once] fields, the number of
    times [t.fd.Close()] ran, and the goroutines calling [Stop]. *)
Record ticker : Type := {
  once_done : bool;
  once_m : bool;
  fd_closes : nat;
  callers : list goroutine
}.

(** The current call returns: start the next one or finish. *)
Definition ret (g : goroutine) : goroutine :=
  match g_todo g with
  | O => {| g_pc := AtReturned; g_todo := O |}
  | S k => {| g_pc := AtLoad; g_todo := k |}
  end.

Definition at_pc (p : pc) (g : goroutine) : goroutine :=
  {| g_pc := p; g_todo := g_todo g |}.

Fixpoint update {A : Type} (i : nat) (x : A) (l : list A) : list A :=
  match l, i with
  | [], _ => []
  | _ :: l', O => x :: l'
  | y :: l', S j => y :: update j x l'
  end.

(** One atomic action of goroutine [i]; [None] when it cannot move (it is
    waiting for the mutex, has returned, or does not exist). *)
Definition Stop_step (i : nat) (t : ticker) : option ticker :=
  match nth_error (callers t) i with
  | None => None
  | Some g =>
    let put g' := update i g' (callers t) in
    match g_pc g with
    | AtLoad =>
      Some {| once_done := once_done t; once_m := once_m t;
              fd_closes := fd_closes t;
              callers := put (if once_done t then ret g else at_pc AtLock g) |}
    | AtLock =>
      if once_m t then None
      else Some {| once_done := once_done t; once_m := true;
                   fd_closes := fd_closes t;
                   callers := put (at_pc AtCheck g) |}
    | AtCheck =>
      Some {| once_done := once_done t; once_m := once_m t;
              fd_closes := fd_closes t;
              callers := put (at_pc (if once_done t then AtUnlock else AtCall) g) |}
    | AtCall =>
      Some {| once_done := once_done t; once_m := once_m t;
              fd_closes := S (fd_closes t);
              callers := put (at_pc AtStore g) |}
    | AtStore =>
      Some {| once_done := true; once_m := once_m t;
              fd_closes := fd_closes t;
              callers := put (at_pc AtUnlock g) |}
    | AtUnlock =>
      Some {| once_done := once_done t; once_m := false;
              fd_closes := fd_closes t;
              callers := put (ret g) |}
    | AtReturned => None
    end
  end.

(** A schedule names the goroutine that moves at each instant. *)
Fixpoint Stop_run (sched : list nat) (t : ticker) : option ticker :=
  match sched with
  | [] => Some t
  | i :: rest =>
    match Stop_step i t with
    | Some t' => Stop_run rest t'
    | None => None
    end
  end.

(** A fresh ticker with one goroutine per entry of [calls]; goroutine [i]
    calls [Stop] [calls_i] times in a row. *)
Definition spawn (calls : list positive) : ticker :=
  {| once_done := false; once_m := false; fd_closes := 0;
     callers := map (fun n => {| g_pc := AtLoad; g_todo := Nat.pred (Pos.to_nat n) |})
                    calls |}.

Definition has_returned (g : goroutine) : bool :=
  match g_pc g with AtReturned => true | _ => false end.

Definition all_returned (t : ticker) : bool := forallb has_returned (callers t).

Definition total_calls (calls : list positive) : nat :=
  fold_right (fun n acc => (Pos.to_nat n + acc)%nat) O calls.

(** ** Ticker.start ([src/main.go]) *)

(** What one [t.fd.Read(expirations)] leaves: the buffer and the error
    (the byte count is discarded by the caller). *)
Record read_result : Type := {
  rd_buf : list byte;
  rd_err : option error
}.

Inductive task_status : Type :=
| Armed                 (* blocked in Read, waiting for the next firing *)
| Stopped               (* the goroutine has returned *)
| Panicked (e : error).

(** The goroutine of [start] run against the successive outcomes of its
    reads, with a consumer that receives every tick.  [hostUint64] is the
    unsafe cast that reads the first eight bytes of the buffer in host
    byte order; [sent] counts the ticks put on the channel. *)
Fixpoint start_loop (hostUint64 : list byte -> N)
         (reads : list read_result) (sent : N) : N * task_status :=
  match reads with
  | [] => (sent, Armed)
  | r :: rest =>
    let err := rd_err r in
    if is_ErrClosed err then (sent, Stopped)
    else
      match err with
      | Some e =>
        (sent, Panicked (Errorf "Unknown error reading from timerfd" e))
      | None =>
        let occurances := hostUint64 (rd_buf r) in
        start_loop hostUint64 rest (sent + occurances)%N
      end
  end.

(** The first [Ticker] of [src/main.go] (lines 95-116): [return] on
    [os.ErrClosed]. *)
Definition start (hostUint64 : list byte -> N) (reads : list read_result)
  : N * task_status :=
  start_loop hostUint64 reads 0%N.

(** The second [Ticker] (lines 205-228) holds [t.m] around the loop and
    leaves it with [break]; the deferred [Unlock] runs when the goroutine
    returns or panics.  The third component tells whether [t.m] is held. *)
Definition start_locked (hostUint64 : list byte -> N)
           (reads : list read_result) : N * task_status * bool :=
  let '(sent, st) := start_loop hostUint64 reads 0%N in
  (sent, st, match st with Armed => true | _ => false end).

(** Little-endian reading of the first eight bytes, the host order of
    amd64 and arm64. *)
Definition le_uint64 (buf : list byte) : N :=
  fold_right (fun b acc => (Byte.to_N b + 256 * acc)%N) 0%N (firstn 8 buf).

(** [os.File.Read] is Go's.  On a handle that has been closed, which is
    what [Stop] does to [t.fd], it reads nothing, leaves the buffer as it
    was and returns [&PathError{Op: "read", Path: name, Err: os.ErrClosed}]:
    every error of [Read] but [io.EOF] comes wrapped in a [PathError]. *)
Definition Read_closed (name : string) (buf : list byte) : read_result :=
  {| rd_buf := buf; rd_err := Some (PathError "read" name ErrClosed) |}.

(** ** Measures and invariants used in the proofs *)

(** The ticks a run of successful reads puts on the channel. *)
Definition ticks (hostUint64 : list byte -> N) (reads : list read_result) : N :=
  fold_right (fun r acc => (hostUint64 (rd_buf r) + acc)%N) 0%N reads.

Definition succeeded (r : read_result) : Prop := rd_err r = None.

Definition count (f : goroutine -> nat) (l : list goroutine) : nat :=
  list_sum (map f l).

(** Goroutines that hold the mutex of the [sync.Once]. *)
Definition in_crit (g : goroutine) : nat :=
  match g_pc g with
  | AtCheck | AtCall | AtStore | AtUnlock => 1
  | _ => 0
  end%nat.

Definition in_call (g : goroutine) : nat :=
  match g_pc g with AtCall => 1 | _ => 0 end%nat.

Definition in_store (g : goroutine) : nat :=
  match g_pc g with AtStore => 1 | _ => 0 end%nat.

(** Goroutines that can only be where they are once [done] is set. *)
Definition past_store (g : goroutine) : bool :=
  match g_pc g with AtUnlock | AtReturned => true | _ => false end.

(** An upper bound on the atomic actions a goroutine still has to take. *)
Definition left_steps (g : goroutine) : nat :=
  (6 * g_todo g +
   match g_pc g with
   | AtLoad => 6 | AtLock => 5 | AtCheck => 4 | AtCall => 3
   | AtStore => 2 | AtUnlock => 1 | AtReturned => 0
   end)%nat.

Definition measure (t : ticker) : nat := count left_steps (callers t).

(** What holds of every ticker reached from [spawn]: the mutex is held by
    exactly the goroutines past [Lock], of which there is at most one; the
    handle was closed once [done] is set or a goroutine is about to set it,
    and not before; nobody is about to close it once [done] is set. *)
Record Inv (t : ticker) : Prop := {
  inv_mutex : count in_crit (callers t) = if once_m t then 1%nat else 0%nat;
  inv_closes :
    fd_closes t = if once_done t then 1%nat else count in_store (callers t);
  inv_done :
    once_done t = true ->
    (count in_call (callers t) + count in_store (callers t) = 0)%nat;
  inv_past :
    Forall (fun g => past_store g = true -> once_done t = true) (callers t)
}.

(** A [Timespec] as the kernel fills it in for [CLOCK_MONOTONIC]: whole
    seconds since the clock's origin and [0 <= Nsec < 1e9]. *)
Definition normalized (ts : Timespec) : Prop :=
  0 <= Sec ts /\ 0 <= Nsec ts < 1000000000.

(** The order of two instants given as [Timespec]s. *)
Definition ts_le (a b : Timespec) : Prop :=
  Sec a < Sec b \/ (Sec a = Sec b /\ Nsec a <= Nsec b).

(** The ticker once [n] goroutines have returned from all their calls. *)
Definition stopped_ticker (n : nat) : ticker :=
  {| once_done := true; once_m := false; fd_closes := 1;
     callers := repeat {| g_pc := AtReturned; g_todo := 0 |} n |}.

(** ** Arithmetic facts about [wrap64] *)

Lemma modulus_eq : modulus = 18446744073709551616.
Proof. reflexivity. Qed.

Lemma half_modulus_eq : half_modulus = 9223372036854775808.
Proof. reflexivity. Qed.

Lemma min_int64_eq : min_int64 = -9223372036854775808.
Proof. reflexivity. Qed.

Lemma max_int64_eq : max_int64 = 9223372036854775807.
Proof. reflexivity. Qed.

Ltac int64_consts :=
  unfold in_int64 in *;
  rewrite ?min_int64_eq, ?max_int64_eq in *.

Lemma wrap64_small (z : Z) : in_int64 z -> wrap64 z = z.
Proof.
  intros H. int64_consts. unfold wrap64.
  rewrite modulus_eq, half_modulus_eq.
  rewrite Z.mod_small by lia. lia.
Qed.

Lemma wrap64_range (z : Z) : in_int64 (wrap64 z).
Proof.
  int64_consts. unfold wrap64. rewrite modulus_eq, half_modulus_eq.
  pose proof (Z.mod_pos_bound (z + 9223372036854775808) 18446744073709551616).
  lia.
Qed.

Lemma wrap64_congr (a b : Z) :
  a mod modulus = b mod modulus -> wrap64 a = wrap64 b.
Proof.
  intros H. unfold wrap64.
  rewrite <- (Z.add_mod_idemp_l a), <- (Z.add_mod_idemp_l b)
    by (rewrite modulus_eq; lia).
  now rewrite H.
Qed.

Lemma wrap64_mod (z : Z) : wrap64 z mod modulus = z mod modulus.
Proof.
  unfold wrap64.
  rewrite <- Zminus_mod_idemp_l, Z.mod_mod by (rewrite modulus_eq; lia).
  rewrite Zminus_mod_idemp_l. f_equal. lia.
Qed.

Lemma wrap64_add_l (a b : Z) : wrap64 (wrap64 a + b) = wrap64 (a + b).
Proof.
  apply wrap64_congr.
  rewrite <- Z.add_mod_idemp_l, wrap64_mod, Z.add_mod_idemp_l
    by (rewrite modulus_eq; lia).
  reflexivity.
Qed.

Lemma wrap64_add_r (a b : Z) : wrap64 (a + wrap64 b) = wrap64 (a + b).
Proof. rewrite (Z.add_comm a), wrap64_add_l. f_equal. lia. Qed.

Lemma wrap64_sub_l (a b : Z) : wrap64 (wrap64 a - b) = wrap64 (a - b).
Proof. unfold Z.sub. apply wrap64_add_l. Qed.

(** The remainder of Go's [%] is bounded by both operands. *)
Lemma rem_bounds (t d : Z) :
  0 < d ->
  (0 <= t -> 0 <= rem t d < d /\ rem t d <= t) /\
  (t <= 0 -> - d < rem t d <= 0 /\ t <= rem t d).
Proof.
  intros Hd. unfold rem. split; intros Ht.
  - pose proof (Z.rem_bound_pos t d Ht Hd).
    pose proof (Z.quot_rem' t d).
    assert (0 <= Z.quot t d) by (apply Z.quot_pos; lia).
    nia.
  - pose proof (Z.rem_bound_pos_neg t d Hd Ht).
    pose proof (Z.quot_rem' t d).
    assert (Z.quot t d <= 0).
    { rewrite <- (Z.opp_involutive t), Z.quot_opp_l by lia.
      assert (0 <= Z.quot (- t) d) by (apply Z.quot_pos; lia). lia. }
    nia.
Qed.

Lemma rem_in_int64 (t d : Z) : in_int64 t -> 0 < d -> in_int64 (rem t d).
Proof.
  intros Ht Hd. destruct (rem_bounds t d Hd) as [Hp Hn].
  int64_consts. destruct (Z_le_gt_dec 0 t); [specialize (Hp ltac:(lia))
                                            |specialize (Hn ltac:(lia))]; lia.
Qed.

(** With [d > 0] the subtraction of the remainder never wraps: the result
    lies between [0] and [t]. *)
Lemma Add_neg_rem (t d : Z) :
  in_int64 t -> 0 < d -> Add t (neg (rem t d)) = t - rem t d.
Proof.
  intros Ht Hd. unfold Add, add, neg.
  rewrite wrap64_add_r. replace (t + - rem t d) with (t - rem t d) by lia.
  apply wrap64_small.
  destruct (rem_bounds t d Hd) as [Hp Hn].
  int64_consts. destruct (Z_le_gt_dec 0 t); [specialize (Hp ltac:(lia))
                                            |specialize (Hn ltac:(lia))]; lia.
Qed.

Lemma Truncate_pos (t d : Z) :
  in_int64 t -> 0 < d -> Truncate t d = t - rem t d.
Proof.
  intros Ht Hd. unfold Truncate.
  destruct (Z.leb_spec d 0); [lia|]. now apply Add_neg_rem.
Qed.

Lemma sub_rem_quot (t d : Z) : t - rem t d = d * Z.quot t d.
Proof. unfold rem. pose proof (Z.quot_rem' t d). lia. Qed.

Lemma rem_multiple (d k : Z) : 0 < d -> Z.rem (d * k) d = 0.
Proof. intros Hd. rewrite Z.mul_comm. apply Z.rem_mul. lia. Qed.

(** The two results [Round] can give when nothing wraps in the final [Add]. *)
Lemma Round_cases (t d : Z) :
  in_int64 t -> 0 < d -> t - rem t d + d <= max_int64 ->
  Round t d = t - rem t d \/ Round t d = t - rem t d + d.
Proof.
  intros Ht Hd Hmax. unfold Round.
  destruct (Z.leb_spec d 0); [lia|].
  cbv zeta. destruct (Z.leb_spec (mul (rem t d) 2) d).
  - left. now apply Add_neg_rem.
  - right. unfold Add, add, sub. rewrite wrap64_add_r.
    replace (t + (d - rem t d)) with (t - rem t d + d) by lia.
    apply wrap64_small.
    destruct (rem_bounds t d Hd) as [Hp Hn].
    int64_consts. destruct (Z_le_gt_dec 0 t); [specialize (Hp ltac:(lia))
                                              |specialize (Hn ltac:(lia))]; lia.
Qed.

Lemma Round_in_int64 (t d : Z) : in_int64 t -> in_int64 (Round t d).
Proof.
  intros Ht. unfold Round. destruct (d <=? 0); [assumption|].
  cbv zeta. destruct (_ <=? _); apply wrap64_range.
Qed.

(** A multiple of [d] is a fixed point of [Round]. *)
Lemma Round_of_multiple (x d : Z) :
  in_int64 x -> 0 < d -> Z.rem x d = 0 -> Round x d = x.
Proof.
  intros Hx Hd Hr. unfold Round, rem.
  destruct (Z.leb_spec d 0); [lia|]. cbv zeta. rewrite Hr.
  unfold mul. rewrite Z.mul_0_l, wrap64_small by (int64_consts; lia).
  destruct (Z.leb_spec 0 d); [|lia].
  unfold Add, add, neg. rewrite wrap64_add_r, Z.add_0_r. now apply wrap64_small.
Qed.

(** * The claims *)

(** C1 (the code diverges from the claim).  Halfway values: for every time
    [t] and duration [d > 0], when the remainder of [t] by [d] is exactly
    half of [d], [Round] takes its [r*2 <= d] branch and returns the
    earlier multiple [t - d/2], strictly before [t]; the later multiple
    [t + d/2] is not what it returns. *)
Theorem Round_halfway_rounds_down (t : MonoTime) (d : Duration) :
  in_int64 t -> in_int64 d -> 0 < d -> rem t d * 2 = d ->
  Round t d = t - rem t d /\ Round t d < t /\ Round t d <> t + (d - rem t d).
Proof.
  intros Ht Hd Hpos Hhalf.
  assert (E : Round t d = t - rem t d).
  { unfold Round. destruct (Z.leb_spec d 0); [lia|]. cbv zeta.
    unfold mul. rewrite Hhalf, (wrap64_small d Hd).
    destruct (Z.leb_spec d d); [|lia]. now apply Add_neg_rem. }
  rewrite E. lia.
Qed.

Lemma Round_halfway_rounds_down_witness :
  Round 5 10 = 5 - rem 5 10 /\ Round 5 10 < 5 /\ Round 5 10 <> 5 + (10 - rem 5 10).
Proof.
  apply (Round_halfway_rounds_down 5 10);
    [int64_consts; lia | int64_consts; lia | lia | reflexivity].
Defined.

(** C2, as stated, fails on a negative time: [Truncate (-3) 10] is [0],
    which is later than [-3]. *)
Lemma Truncate_negative_counterexample :
  Truncate (-3) 10 = 0 /\
  ~ (Truncate (-3) 10 <= -3 /\ Z.rem (Truncate (-3) 10) 10 = 0 /\
     -3 - Truncate (-3) 10 < 10).
Proof. split; [reflexivity|]. vm_compute. intros [H _]. now apply H. Qed.

(** C2 (amended).  For every time [t] and duration [d > 0], [Truncate t d]
    is [t] rounded toward zero to a multiple of [d]: its signed remainder
    by [d] is zero and [t - Truncate t d < d]; [Truncate t d <= t] holds for
    [t >= 0], while for [t < 0] the result lies in [t .. 0], less than [d]
    after [t]. *)
Theorem Truncate_toward_zero (t : MonoTime) (d : Duration) :
  in_int64 t -> 0 < d ->
  Z.rem (Truncate t d) d = 0 /\
  t - Truncate t d < d /\
  Truncate t d = d * Z.quot t d /\
  (0 <= t -> Truncate t d <= t) /\
  (t < 0 -> t <= Truncate t d <= 0 /\ Truncate t d - t < d).
Proof.
  intros Ht Hd. rewrite (Truncate_pos t d Ht Hd).
  destruct (rem_bounds t d Hd) as [Hp Hn].
  split; [rewrite sub_rem_quot; now apply rem_multiple|].
  split; [destruct (Z_le_gt_dec 0 t);
          [specialize (Hp ltac:(lia))|specialize (Hn ltac:(lia))]; lia|].
  split; [apply sub_rem_quot|].
  split; intros H; [specialize (Hp ltac:(lia))|specialize (Hn ltac:(lia))]; lia.
Qed.

Lemma Truncate_toward_zero_witness :
  Z.rem (Truncate (-13) 10) 10 = 0 /\
  -13 - Truncate (-13) 10 < 10 /\
  Truncate (-13) 10 = 10 * Z.quot (-13) 10 /\
  (0 <= -13 -> Truncate (-13) 10 <= -13) /\
  (-13 < 0 -> -13 <= Truncate (-13) 10 <= 0 /\ Truncate (-13) 10 - -13 < 10).
Proof.
  apply (Truncate_toward_zero (-13) 10); [int64_consts; lia | lia].
Defined.

(** C3, as stated, fails in three places: on a negative time ([Round (-7) 10]
    is [0], seven away), when [r*2] wraps ([Round (max_int64 - 1) max_int64]
    is [0]) and when the final [Add] wraps ([Round max_int64 10]). *)
Lemma Round_distance_counterexample :
  (Round (-7) 10 = 0 /\ ~ Z.abs (Round (-7) 10 - -7) <= 10 / 2) /\
  (Round (max_int64 - 1) max_int64 = 0 /\
   ~ Z.abs (Round (max_int64 - 1) max_int64 - (max_int64 - 1)) <= max_int64 / 2) /\
  (Round max_int64 10 = -9223372036854775806 /\
   ~ Z.abs (Round max_int64 10 - max_int64) <= 10 / 2).
Proof.
  repeat split; try reflexivity; vm_compute; intros H; now apply H.
Qed.

(** C3 (amended).  For every time [t >= 0] and duration [d > 0] with
    [t + d <= max_int64], so that nothing in [Round] wraps around, the
    distance between [Round t d] and [t] is at most [d/2]. *)
Theorem Round_within_half (t : MonoTime) (d : Duration) :
  0 <= t -> 0 < d -> t + d <= max_int64 ->
  Z.abs (Round t d - t) <= d / 2.
Proof.
  intros Ht Hd Hmax.
  destruct (rem_bounds t d Hd) as [Hp _]. specialize (Hp Ht).
  assert (Hhalf : 2 * (d / 2) <= d < 2 * (d / 2) + 2).
  { pose proof (Z.div_mod d 2 ltac:(lia)).
    pose proof (Z.mod_pos_bound d 2 ltac:(lia)). lia. }
  assert (Hmul : mul (rem t d) 2 = rem t d * 2).
  { unfold mul. apply wrap64_small. int64_consts. lia. }
  unfold Round. destruct (Z.leb_spec d 0); [lia|]. cbv zeta. rewrite Hmul.
  destruct (Z.leb_spec (rem t d * 2) d).
  - rewrite Add_neg_rem by (int64_consts; lia). lia.
  - unfold Add, add, sub. rewrite wrap64_add_r.
    rewrite wrap64_small by (int64_consts; lia). lia.
Qed.

Lemma Round_within_half_witness :
  Z.abs (Round 17 10 - 17) <= 10 / 2.
Proof.
  apply (Round_within_half 17 10); [lia | lia | int64_consts; lia].
Defined.

(** C4.  [Add] and [Sub] are inverse to each other under 64-bit wrap-around:
    for every time [t], duration [d] and time [t2],
    [t.Add(d).Sub(t) = d] and [t.Add(t2.Sub(t)) = t2]. *)
Theorem Add_Sub_inverse (t : MonoTime) (d : Duration) (t2 : MonoTime) :
  in_int64 d -> in_int64 t2 ->
  Sub (Add t d) t = d /\ Add t (Sub t2 t) = t2.
Proof.
  intros Hd Ht2. unfold Sub, Add, sub, add. split.
  - rewrite wrap64_sub_l. replace (t + d - t) with d by lia.
    now apply wrap64_small.
  - rewrite wrap64_add_r. replace (t + (t2 - t)) with t2 by lia.
    now apply wrap64_small.
Qed.

Lemma Add_Sub_inverse_witness :
  Sub (Add max_int64 5) max_int64 = 5 /\ Add max_int64 (Sub min_int64 max_int64) = min_int64.
Proof.
  apply (Add_Sub_inverse max_int64 5 min_int64); int64_consts; lia.
Defined.

(** C8.  For every time [t] and duration [d <= 0], [Round] and [Truncate]
    return [t] unchanged. *)
Theorem Round_Truncate_nonpositive (t : MonoTime) (d : Duration) :
  d <= 0 -> Round t d = t /\ Truncate t d = t.
Proof.
  intros Hd. unfold Round, Truncate.
  destruct (Z.leb_spec d 0); [split; reflexivity | lia].
Qed.

Lemma Round_Truncate_nonpositive_witness :
  Round 17 (-10) = 17 /\ Truncate 17 (-10) = 17.
Proof. apply (Round_Truncate_nonpositive 17 (-10)); lia. Defined.

(** C9, as stated, fails when the final [Add] wraps: [Round max_int64 10]
    is [-9223372036854775806], which is no multiple of [10] and is moved
    again by a second [Round]. *)
Lemma Round_multiple_counterexample :
  Round max_int64 10 = -9223372036854775806 /\
  Z.rem (Round max_int64 10) 10 <> 0 /\
  Round (Round max_int64 10) 10 <> Round max_int64 10.
Proof. repeat split; vm_compute; discriminate. Qed.

(** C9 (amended).  For every time [t] and duration [d > 0] such that the
    multiple of [d] after [t - t % d] is still an [int64]
    ([t - t % d + d <= max_int64]), [Round t d] is an exact multiple of [d]
    and [Round] is idempotent on it. *)
Theorem Round_multiple_idempotent (t : MonoTime) (d : Duration) :
  in_int64 t -> 0 < d -> t - rem t d + d <= max_int64 ->
  Z.rem (Round t d) d = 0 /\ Round (Round t d) d = Round t d.
Proof.
  intros Ht Hd Hmax.
  assert (Hrem : Z.rem (Round t d) d = 0).
  { destruct (Round_cases t d Ht Hd Hmax) as [E|E]; rewrite E, sub_rem_quot.
    - now apply rem_multiple.
    - replace (d * Z.quot t d + d) with (d * (Z.quot t d + 1)) by lia.
      now apply rem_multiple. }
  split; [assumption|].
  apply Round_of_multiple; [now apply Round_in_int64 | assumption | assumption].
Qed.

Lemma Round_multiple_idempotent_witness :
  Z.rem (Round (-17) 10) 10 = 0 /\ Round (Round (-17) 10) 10 = Round (-17) 10.
Proof.
  apply (Round_multiple_idempotent (-17) 10);
    [int64_consts; lia | lia | vm_compute; discriminate].
Defined.

(** C10.  Zero is an identity of [Add], and adding two durations in turn
    is adding their 64-bit sum: [t.Add(0) = t] and
    [t.Add(d1).Add(d2) = t.Add(d1 + d2)]. *)
Theorem Add_zero_and_sum (t : MonoTime) (d1 d2 : Duration) :
  in_int64 t ->
  Add t 0 = t /\ Add (Add t d1) d2 = Add t (add d1 d2).
Proof.
  intros Ht. unfold Add, add. split.
  - rewrite Z.add_0_r. now apply wrap64_small.
  - rewrite wrap64_add_l, wrap64_add_r. f_equal. lia.
Qed.

Lemma Add_zero_and_sum_witness :
  Add 7 0 = 7 /\ Add (Add 7 max_int64) max_int64 = Add 7 (add max_int64 max_int64).
Proof. apply (Add_zero_and_sum 7 max_int64 max_int64). int64_consts. lia. Defined.

(** C5 (the code diverges from the claim).  Whenever [ClockGettime] reports
    an error, [Now] of the [MonoTime] declaration drops it and returns the
    nanoseconds of whatever the [Timespec] holds; [Now] of the [Time]
    declaration panics with the wrapped error. *)
Theorem Now_discards_clock_error
        (ClockGettime : clock_gettime) (ts : Timespec) (e : error) :
  ClockGettime new_Timespec = (ts, Some e) ->
  MonoTimeDecl.Now ClockGettime = Returns (Nano ts) /\
  TimeDecl.Now ClockGettime =
    Panics (Errorf "Error getting monotime from the kernel" e).
Proof.
  intros H. unfold MonoTimeDecl.Now, TimeDecl.Now. rewrite H. split; reflexivity.
Qed.

Lemma Now_discards_clock_error_witness :
  MonoTimeDecl.Now (fun spec => (spec, Some (Errno 22))) = Returns 0 /\
  TimeDecl.Now (fun spec => (spec, Some (Errno 22))) =
    Panics (Errorf "Error getting monotime from the kernel" (Errno 22)).
Proof.
  exact (Now_discards_clock_error (fun spec => (spec, Some (Errno 22)))
                                  new_Timespec (Errno 22) eq_refl).
Defined.

(** ** The goroutine of [start] *)

Lemma is_ErrClosed_spec (err : option error) :
  is_ErrClosed err = true <-> err = Some ErrClosed.
Proof.
  destruct err as [[]|]; simpl; split; intros H;
    try reflexivity; try discriminate.
Qed.

(** Successful reads only add their ticks and leave the loop running. *)
Lemma start_loop_succeeded
      (hostUint64 : list byte -> N) (ok rest : list read_result) (sent : N) :
  Forall succeeded ok ->
  start_loop hostUint64 (ok ++ rest) sent =
  start_loop hostUint64 rest (sent + ticks hostUint64 ok)%N.
Proof.
  intros Hok. revert sent.
  induction Hok as [|r ok Hr _ IH]; intros sent; simpl.
  - now rewrite N.add_0_r.
  - red in Hr. rewrite Hr. simpl. rewrite IH. f_equal. lia.
Qed.

(** Every history of reads is a run of successes, followed or not by a
    first failure. *)
Lemma reads_split (reads : list read_result) :
  Forall succeeded reads \/
  exists ok r rest e,
    reads = ok ++ r :: rest /\ Forall succeeded ok /\ rd_err r = Some e.
Proof.
  induction reads as [|r reads IH].
  - left. constructor.
  - destruct (rd_err r) as [e|] eqn:Hr.
    + right. exists [], r, reads, e. repeat split; [constructor | assumption].
    + destruct IH as [IH | (ok & r' & rest & e & -> & Hok & He)].
      * left. now constructor.
      * right. exists (r :: ok), r', rest, e.
        repeat split; [now constructor | assumption].
Qed.

Lemma start_loop_failure
      (hostUint64 : list byte -> N) (r : read_result)
      (rest : list read_result) (e : error) (sent : N) :
  rd_err r = Some e ->
  start_loop hostUint64 (r :: rest) sent =
  (sent, match e with
         | ErrClosed => Stopped
         | _ => Panicked (Errorf "Unknown error reading from timerfd" e)
         end).
Proof. intros He. simpl. rewrite He. now destruct e. Qed.

(** The three ways the loop of [start] can go, read off its tests: against
    any history of reads the goroutine has returned exactly when its first
    failed read gave the bare sentinel [os.ErrClosed]; it has panicked
    exactly when its first failed read gave any other error; and while
    every read succeeds it is still running, having sent the ticks that
    the reads reported.  The variant that holds [t.m] ends in the same way
    and has released [t.m] exactly when it is no longer running. *)
Lemma start_exits_only_on_ErrClosed
        (hostUint64 : list byte -> N) (reads : list read_result) :
  let st := snd (start hostUint64 reads) in
  (st = Stopped <->
   exists ok r rest,
     reads = ok ++ r :: rest /\ Forall succeeded ok /\
     rd_err r = Some ErrClosed) /\
  (forall p, st = Panicked p <->
   exists ok r rest e,
     reads = ok ++ r :: rest /\ Forall succeeded ok /\
     rd_err r = Some e /\ e <> ErrClosed /\
     p = Errorf "Unknown error reading from timerfd" e) /\
  (st = Armed <-> Forall succeeded reads) /\
  (Forall succeeded reads ->
   start hostUint64 reads = (ticks hostUint64 reads, Armed)) /\
  start_locked hostUint64 reads =
    (fst (start hostUint64 reads), st,
     match st with Armed => true | _ => false end).
Proof.
  assert (Huniq : forall ok r rest e ok' r' rest' e',
             ok ++ r :: rest = ok' ++ r' :: rest' ->
             Forall succeeded ok -> rd_err r = Some e ->
             Forall succeeded ok' -> rd_err r' = Some e' -> e = e').
  { induction ok as [|a ok IH]; intros r rest e ok' r' rest' e' Heq Hok He Hok' He'.
    - destruct ok' as [|a' ok'']; simpl in Heq; injection Heq as -> _.
      + congruence.
      + apply Forall_inv in Hok'. red in Hok'. congruence.
    - destruct ok' as [|a' ok'']; simpl in Heq; injection Heq as -> Heq.
      + apply Forall_inv in Hok. red in Hok. congruence.
      + apply (IH r rest e ok'' r' rest' e' Heq);
          [now apply Forall_inv_tail in Hok | assumption
          | now apply Forall_inv_tail in Hok' | assumption]. }
  assert (Hfail : forall ok r rest e,
             reads = ok ++ r :: rest -> Forall succeeded ok ->
             rd_err r = Some e -> ~ Forall succeeded reads).
  { intros ok r rest e -> Hok He Hall.
    apply Forall_app in Hall as [_ Hall]. apply Forall_inv in Hall.
    red in Hall. congruence. }
  unfold start_locked, start.
  destruct (reads_split reads) as [Hall | (ok & r & rest & e & Hsplit & Hok & He)].
  - pose proof (start_loop_succeeded hostUint64 reads [] 0%N Hall) as E.
    rewrite app_nil_r in E. simpl in E. rewrite E. simpl.
    repeat split; try discriminate; try (intros _; assumption);
      try reflexivity.
    + intros (ok & r & rest & Hsplit & Hok & He).
      exfalso. exact (Hfail _ _ _ _ Hsplit Hok He Hall).
    + intros (ok & r & rest & e & Hsplit & Hok & He & _).
      exfalso. exact (Hfail _ _ _ _ Hsplit Hok He Hall).
  - pose proof (Hfail _ _ _ _ Hsplit Hok He) as Hnot.
    assert (E : start_loop hostUint64 reads 0%N =
                (ticks hostUint64 ok,
                 match e with
                 | ErrClosed => Stopped
                 | _ => Panicked (Errorf "Unknown error reading from timerfd" e)
                 end)).
    { rewrite Hsplit, (start_loop_succeeded _ _ _ _ Hok).
      now rewrite (start_loop_failure _ _ _ _ _ He). }
    rewrite E. simpl. subst reads.
    split; [|split; [|split; [|split]]].
    + split.
      * intros Hst. exists ok, r, rest. repeat split; try assumption.
        destruct e; try discriminate. assumption.
      * intros (ok' & r' & rest' & Heq & Hok' & He').
        now rewrite (Huniq _ _ _ _ _ _ _ _ Heq Hok He Hok' He').
    + intros p. split.
      * intros Hst. exists ok, r, rest, e.
        repeat split; try assumption; destruct e; try discriminate;
          injection Hst as <-; reflexivity.
      * intros (ok' & r' & rest' & e' & Heq & Hok' & He' & Hne & ->).
        rewrite (Huniq _ _ _ _ _ _ _ _ Heq Hok He Hok' He').
        destruct e'; try reflexivity. now elim Hne.
    + split; [|intros H; now elim Hnot].
      destruct e; discriminate.
    + intros H. now elim Hnot.
    + reflexivity.
Qed.

(** C7 (the code diverges from the claim).  The read that fails because
    [Stop] closed the handle returns [os.ErrClosed] wrapped in a
    [PathError]; the test [err == os.ErrClosed] is false of it, the test
    [err != nil] is true, and the goroutine of [start] panics.  So after
    any successful reads, a read on the closed handle ends both variants
    of the goroutine with a panic that carries the wrapped error, not with
    a return; the variant that holds [t.m] releases it on the way out; and
    whatever is read afterwards makes no difference. *)
Theorem start_panics_when_Stop_closes
        (hostUint64 : list byte -> N) (ok rest : list read_result)
        (name : string) (buf : list byte) :
  Forall succeeded ok ->
  let reads := ok ++ Read_closed name buf :: rest in
  let p := Errorf "Unknown error reading from timerfd"
                  (PathError "read" name ErrClosed) in
  start hostUint64 reads = (ticks hostUint64 ok, Panicked p) /\
  start_locked hostUint64 reads = (ticks hostUint64 ok, Panicked p, false) /\
  snd (start hostUint64 reads) <> Stopped.
Proof.
  intros Hok reads p.
  assert (E : start_loop hostUint64 reads 0%N = (ticks hostUint64 ok, Panicked p)).
  { unfold reads. rewrite (start_loop_succeeded _ _ _ _ Hok).
    now rewrite (start_loop_failure hostUint64 (Read_closed name buf) rest
                   (PathError "read" name ErrClosed) _ eq_refl). }
  unfold start_locked, start. rewrite E. simpl.
  split; [reflexivity | split; [reflexivity | discriminate]].
Qed.

Lemma start_panics_when_Stop_closes_witness :
  let fired := {| rd_buf := [x02; x00; x00; x00; x00; x00; x00; x00];
                  rd_err := None |} in
  let closed := Read_closed "timerfd" [x02; x00; x00; x00; x00; x00; x00; x00] in
  let p := Errorf "Unknown error reading from timerfd"
                  (PathError "read" "timerfd" ErrClosed) in
  start le_uint64 ([fired] ++ closed :: []) = (ticks le_uint64 [fired], Panicked p) /\
  start_locked le_uint64 ([fired] ++ closed :: []) =
    (ticks le_uint64 [fired], Panicked p, false) /\
  snd (start le_uint64 ([fired] ++ closed :: [])) <> Stopped.
Proof.
  apply (start_panics_when_Stop_closes le_uint64
           [ {| rd_buf := [x02; x00; x00; x00; x00; x00; x00; x00];
                rd_err := None |} ] []
           "timerfd" [x02; x00; x00; x00; x00; x00; x00; x00]).
  repeat constructor.
Defined.

(** ** Goroutines calling [Stop] *)

Lemma count_split (f : goroutine -> nat) (l1 l2 : list goroutine) (g : goroutine) :
  count f (l1 ++ g :: l2) = (count f l1 + f g + count f l2)%nat.
Proof.
  unfold count. rewrite map_app, list_sum_app. simpl. lia.
Qed.

Lemma count_le (f h : goroutine -> nat) (l : list goroutine) :
  (forall g, f g <= h g)%nat -> (count f l <= count h l)%nat.
Proof.
  intros Hfh. unfold count. induction l as [|g l IH]; simpl; [lia|].
  specialize (Hfh g). lia.
Qed.

Lemma in_call_crit (g : goroutine) : (in_call g <= in_crit g)%nat.
Proof. unfold in_call, in_crit. destruct (g_pc g); lia. Qed.

Lemma in_store_crit (g : goroutine) : (in_store g <= in_crit g)%nat.
Proof. unfold in_store, in_crit. destruct (g_pc g); lia. Qed.

(** Outside the mutex nobody is at [Call] or [Store]. *)
Lemma no_crit_no_call_store (l : list goroutine) :
  count in_crit l = O -> count in_call l = O /\ count in_store l = O.
Proof.
  intros H.
  pose proof (count_le in_call in_crit l in_call_crit).
  pose proof (count_le in_store in_crit l in_store_crit). lia.
Qed.

Lemma nth_error_update_split {A : Type} (i : nat) (l : list A) (x : A) :
  nth_error l i = Some x ->
  exists l1 l2, l = l1 ++ x :: l2 /\ forall y, update i y l = l1 ++ y :: l2.
Proof.
  revert i. induction l as [|a l IH]; intros [|i] H; simpl in H; try discriminate.
  - injection H as ->. exists [], l. split; reflexivity.
  - destruct (IH i H) as (l1 & l2 & -> & Hu).
    exists (a :: l1), l2. split; [reflexivity|].
    intros y. simpl. now rewrite Hu.
Qed.

Lemma count_pos_nth (f : goroutine -> nat) (l : list goroutine) :
  (0 < count f l)%nat ->
  exists i g, nth_error l i = Some g /\ (0 < f g)%nat.
Proof.
  unfold count. induction l as [|a l IH]; simpl; intros H; [lia|].
  destruct (f a) eqn:Ha.
  - destruct (IH H) as (i & g & Hi & Hg). now exists (S i), g.
  - exists O, a. split; [reflexivity | lia].
Qed.

Lemma count_zero_nth (f : goroutine -> nat) (l : list goroutine) (i : nat) (g : goroutine) :
  count f l = O -> nth_error l i = Some g -> f g = O.
Proof.
  intros H Hi. destruct (nth_error_update_split i l g Hi) as (l1 & l2 & -> & _).
  rewrite count_split in H. lia.
Qed.

Lemma not_all_returned_nth (l : list goroutine) :
  forallb has_returned l = false ->
  exists i g, nth_error l i = Some g /\ has_returned g = false.
Proof.
  induction l as [|a l IH]; simpl; intros H; [discriminate|].
  destruct (has_returned a) eqn:Ha.
  - destruct (IH H) as (i & g & Hi & Hg). now exists (S i), g.
  - now exists O, a.
Qed.

Lemma left_steps_ret (g : goroutine) : (left_steps (ret g) <= 6 * g_todo g)%nat.
Proof. unfold ret, left_steps. destruct (g_todo g); simpl; lia. Qed.

Lemma in_crit_ret (g : goroutine) : in_crit (ret g) = O.
Proof. unfold ret. now destruct (g_todo g). Qed.

Lemma in_call_ret (g : goroutine) : in_call (ret g) = O.
Proof. unfold ret. now destruct (g_todo g). Qed.

Lemma in_store_ret (g : goroutine) : in_store (ret g) = O.
Proof. unfold ret. now destruct (g_todo g). Qed.

Lemma Forall_past_split (P : Prop) (l1 l2 : list goroutine) (g g' : goroutine) :
  Forall (fun x => past_store x = true -> P) (l1 ++ g :: l2) ->
  (past_store g' = true -> P) ->
  Forall (fun x => past_store x = true -> P) (l1 ++ g' :: l2).
Proof.
  intros H Hg'. apply Forall_app in H as [H1 H2].
  apply Forall_app. split; [assumption|].
  constructor; [assumption | now apply Forall_inv_tail in H2].
Qed.

Lemma Forall_past_true (l : list goroutine) :
  Forall (fun x => past_store x = true -> true = true) l.
Proof. apply Forall_forall. reflexivity. Qed.

Lemma Inv_spawn (calls : list positive) : Inv (spawn calls).
Proof.
  assert (H : forall f, (forall k, f {| g_pc := AtLoad; g_todo := k |} = O) ->
                        count f (callers (spawn calls)) = O).
  { intros f Hf. unfold count. simpl.
    induction calls as [|n calls IH]; simpl; [reflexivity|].
    now rewrite Hf, IH. }
  constructor; simpl.
  - now apply H.
  - symmetry. now apply H.
  - discriminate.
  - apply Forall_forall. intros g Hg.
    apply in_map_iff in Hg as (n & <- & _). discriminate.
Qed.

Lemma measure_spawn (calls : list positive) :
  measure (spawn calls) = (6 * total_calls calls)%nat.
Proof.
  unfold measure, count. simpl.
  induction calls as [|n calls IH]; simpl; [reflexivity|].
  rewrite IH. unfold left_steps. simpl.
  pose proof (Pos2Nat.is_pos n). lia.
Qed.

(** One atomic action keeps the invariant, uses up some of the measure and
    neither adds nor removes a goroutine. *)
Lemma step_Inv (i : nat) (t t' : ticker) :
  Inv t -> Stop_step i t = Some t' ->
  Inv t' /\ (measure t' < measure t)%nat /\
  List.length (callers t') = List.length (callers t).
Proof.
  intros [Hm Hc Hd Hp] Hstep. unfold Stop_step in Hstep.
  destruct (nth_error (callers t) i) as [g|] eqn:Hi; [|discriminate].
  destruct (nth_error_update_split _ _ _ Hi) as (l1 & l2 & Hl & Hu).
  destruct t as [dn m cl pool]. simpl in *. subst pool.
  assert (Hpg : past_store g = true -> dn = true).
  { apply Forall_app in Hp as [_ Hp]. now apply Forall_inv in Hp. }
  rewrite count_split in Hm, Hc.
  rewrite !count_split in Hd.
  pose proof (count_le in_call in_crit l1 in_call_crit).
  pose proof (count_le in_call in_crit l2 in_call_crit).
  pose proof (count_le in_store in_crit l1 in_store_crit).
  pose proof (count_le in_store in_crit l2 in_store_crit).
  destruct g as [p k].
  destruct p; destruct dn; destruct m; destruct k as [|k];
    simpl in Hstep; try discriminate;
    injection Hstep as <-; rewrite Hu;
    (split; [constructor | split; [unfold measure|] ]); simpl;
    rewrite ?count_split, ?length_app; try reflexivity;
    try (apply (Forall_past_split _ _ _ _ _ Hp); simpl;
         first [reflexivity | discriminate | assumption | now auto]);
    try apply Forall_past_true;
    generalize dependent (count in_crit l1);
    generalize dependent (count in_crit l2);
    generalize dependent (count in_call l1);
    generalize dependent (count in_call l2);
    generalize dependent (count in_store l1);
    generalize dependent (count in_store l2);
    generalize dependent (count left_steps l1);
    generalize dependent (count left_steps l2);
    unfold in_crit, in_call, in_store, left_steps, at_pc, ret; simpl;
    intros; lia.
Qed.

(** While a call is pending some goroutine can move: the holder of the
    mutex when it is held, any goroutine that has not returned when not. *)
Lemma step_progress (t : ticker) :
  Inv t -> all_returned t = false -> exists i t', Stop_step i t = Some t'.
Proof.
  intros [Hm _ _ _] Hall. unfold all_returned in Hall. unfold Stop_step.
  destruct (once_m t) eqn:Em.
  - destruct (count_pos_nth in_crit (callers t)) as (i & g & Hi & Hg); [lia|].
    exists i. rewrite Hi. unfold in_crit in Hg.
    destruct (g_pc g); try lia; eexists; reflexivity.
  - destruct (not_all_returned_nth _ Hall) as (i & g & Hi & Hg).
    pose proof (count_zero_nth in_crit _ i g Hm Hi) as Hc.
    exists i. rewrite Hi. unfold in_crit in Hc. unfold has_returned in Hg.
    destruct (g_pc g); try discriminate; eexists; reflexivity.
Qed.

Lemma run_Inv (sched : list nat) (t t' : ticker) :
  Inv t -> Stop_run sched t = Some t' ->
  Inv t' /\ (measure t' + List.length sched <= measure t)%nat /\
  List.length (callers t') = List.length (callers t).
Proof.
  revert t. induction sched as [|i sched IH]; intros t HI Hrun; simpl in Hrun.
  - injection Hrun as <-. simpl. split; [assumption | split; [lia | reflexivity]].
  - destruct (Stop_step i t) as [t1|] eqn:Hs; [|discriminate].
    destruct (step_Inv i t t1 HI Hs) as (HI1 & Hlt & Hlen).
    destruct (IH t1 HI1 Hrun) as (HI' & Hle & Hlen').
    simpl. split; [assumption | split; [lia | congruence]].
Qed.

(** From any ticker that satisfies the invariant the pending calls can be
    run to their return. *)
Lemma run_to_completion (t : ticker) :
  Inv t -> exists rest t', Stop_run rest t = Some t' /\ all_returned t' = true.
Proof.
  remember (measure t) as n eqn:Hn. revert t Hn.
  induction n as [n IH] using lt_wf_ind. intros t Hn HI.
  destruct (all_returned t) eqn:Hall.
  - exists [], t. split; [reflexivity | assumption].
  - destruct (step_progress t HI Hall) as (i & t1 & Hs).
    destruct (step_Inv i t t1 HI Hs) as (HI1 & Hlt & _).
    destruct (IH (measure t1) ltac:(lia) t1 eq_refl HI1) as (rest & t' & Hrun & Hret).
    exists (i :: rest), t'. simpl. rewrite Hs. split; assumption.
Qed.

(** Once every call has returned the handle has been closed, and once. *)
Lemma returned_closed_once (t : ticker) :
  Inv t -> callers t <> [] -> all_returned t = true -> fd_closes t = 1%nat.
Proof.
  intros [_ Hc _ Hp] Hne Hall. unfold all_returned in Hall.
  destruct (callers t) as [|g l] eqn:El; [congruence|].
  simpl in Hall. apply andb_true_iff in Hall as [Hg _].
  apply Forall_inv in Hp.
  assert (Hd : once_done t = true).
  { apply Hp. unfold has_returned in Hg. unfold past_store.
    destruct (g_pc g); try discriminate; reflexivity. }
  now rewrite Hd in Hc.
Qed.

Lemma closes_le_1 (t : ticker) : Inv t -> (fd_closes t <= 1)%nat.
Proof.
  intros [Hm Hc _ _]. rewrite Hc.
  pose proof (count_le in_store in_crit (callers t) in_store_crit).
  destruct (once_done t); destruct (once_m t); lia.
Qed.

(** C6.  Let any number of goroutines, at least one, each call [Stop] one
    or more times, and let their atomic actions interleave in any order.
    At every instant the handle has been closed at most once; the
    interleaving is over after at most six actions per call; whenever calls
    are pending one of them can move, and the pending calls can always be
    run to their return; and when all calls have returned the handle has
    been closed exactly once. *)
Theorem Stop_closes_exactly_once
        (calls : list positive) (sched : list nat) (t : ticker) :
  calls <> [] ->
  Stop_run sched (spawn calls) = Some t ->
  (fd_closes t <= 1)%nat /\
  (List.length sched <= 6 * total_calls calls)%nat /\
  (all_returned t = true -> fd_closes t = 1%nat) /\
  (all_returned t = false -> exists i t', Stop_step i t = Some t') /\
  (exists rest t',
      Stop_run rest t = Some t' /\ all_returned t' = true /\ fd_closes t' = 1%nat).
Proof.
  intros Hne Hrun.
  destruct (run_Inv sched _ t (Inv_spawn calls) Hrun) as (HI & Hle & Hlen).
  rewrite measure_spawn in Hle.
  assert (Hpool : forall u, List.length (callers u) = List.length (callers t) ->
                            callers u <> []).
  { intros u Hu E. rewrite E, Hlen in Hu. simpl in Hu.
    rewrite length_map in Hu. destruct calls; [congruence | discriminate]. }
  split; [now apply closes_le_1|].
  split; [lia|].
  split; [apply returned_closed_once; [assumption | now apply Hpool]|].
  split; [now apply step_progress|].
  destruct (run_to_completion t HI) as (rest & t' & Hrest & Hret).
  destruct (run_Inv rest t t' HI Hrest) as (HI' & _ & Hlen').
  exists rest, t'. split; [assumption | split; [assumption|]].
  apply returned_closed_once; [assumption | now apply Hpool | assumption].
Qed.

Lemma Stop_closes_exactly_once_witness :
  let t := {| once_done := true; once_m := false; fd_closes := 1;
              callers := [ {| g_pc := AtReturned; g_todo := 0 |};
                           {| g_pc := AtLoad; g_todo := 0 |} ] |} in
  (fd_closes t <= 1)%nat /\
  (List.length [0; 1; 0; 0; 0; 0; 0; 1; 1; 1]%nat <= 6 * total_calls [1; 2]%positive)%nat /\
  (all_returned t = true -> fd_closes t = 1%nat) /\
  (all_returned t = false -> exists i t', Stop_step i t = Some t') /\
  (exists rest t',
      Stop_run rest t = Some t' /\ all_returned t' = true /\ fd_closes t' = 1%nat).
Proof.
  apply (Stop_closes_exactly_once [1; 2]%positive [0; 1; 0; 0; 0; 0; 0; 1; 1; 1]%nat);
    [discriminate | reflexivity].
Defined.

(** ** Further facts about the code *)

(** A negative duration reaches [Round] through [MonoDuration.Round]; its
    remainder is negative, the test [r*2 <= m] holds, and the result is the
    multiple toward zero even when the other one is nearer. *)
Example MonoDuration_Round_negative :
  MonoDuration.Round (-7) 10 = 0 /\ MonoDuration.Truncate (-7) 10 = 0.
Proof. split; reflexivity. Qed.

(** Only the bare sentinel stops the goroutine of [start]: an error that
    wraps [os.ErrClosed] takes the panic branch. *)
Example start_wrapped_ErrClosed (hostUint64 : list byte -> N) :
  start hostUint64
        [ {| rd_buf := []; rd_err := Some (PathError "read" "timerfd" ErrClosed) |} ] =
  (0%N, Panicked (Errorf "Unknown error reading from timerfd"
                         (PathError "read" "timerfd" ErrClosed))).
Proof. reflexivity. Qed.

(** Two firings reported by one read, three by the next, then a read that
    fails with the bare sentinel. *)
Example start_ticks_then_stop :
  start le_uint64
        [ {| rd_buf := [x02; x00; x00; x00; x00; x00; x00; x00]; rd_err := None |};
          {| rd_buf := [x03; x00; x00; x00; x00; x00; x00; x00]; rd_err := None |};
          {| rd_buf := [x03; x00; x00; x00; x00; x00; x00; x00];
             rd_err := Some ErrClosed |} ] =
  (5%N, Stopped).
Proof. reflexivity. Qed.

(** * Further properties of the code *)

(** ** Add and Sub *)

Lemma wrap64_sub_r (a b : Z) : wrap64 (a - wrap64 b) = wrap64 (a - b).
Proof.
  apply wrap64_congr.
  rewrite <- Zminus_mod_idemp_r, wrap64_mod, Zminus_mod_idemp_r.
  reflexivity.
Qed.

Lemma wrap64_opp (a : Z) : wrap64 (- wrap64 a) = wrap64 (- a).
Proof.
  replace (- wrap64 a) with (0 - wrap64 a) by lia.
  rewrite wrap64_sub_r. f_equal.
Qed.

(** X1.  [t.Add(-d)] is the 64-bit difference [t - d], as the comment of
    [Sub] advises, and it takes back what [t.Add(d)] added, for every [d]
    (also the least [int64], whose negation wraps to itself). *)
Theorem Add_neg_subtracts (t : MonoTime) (d : Duration) :
  in_int64 t ->
  Add t (neg d) = sub t d /\ Add (Add t d) (neg d) = t.
Proof.
  intros Ht. unfold Add, add, neg, sub. split.
  - rewrite wrap64_add_r. f_equal.
  - rewrite wrap64_add_l, wrap64_add_r.
    replace (t + d + - d) with t by lia. now apply wrap64_small.
Qed.

Lemma Add_neg_subtracts_witness :
  Add 7 (neg min_int64) = sub 7 min_int64 /\ Add (Add 7 min_int64) (neg min_int64) = 7.
Proof. apply (Add_neg_subtracts 7 min_int64). int64_consts. lia. Defined.

(** X2.  [Sub] is antisymmetric under 64-bit negation, and the distance of
    a time to itself is zero. *)
Theorem Sub_antisymmetric (t u : MonoTime) :
  Sub t u = neg (Sub u t) /\ Sub t t = 0.
Proof.
  unfold Sub, sub, neg. split.
  - rewrite wrap64_opp. f_equal. lia.
  - rewrite Z.sub_diag. reflexivity.
Qed.

(** X3.  Moving two times by the same duration does not change their
    difference, whether or not either [Add] wraps. *)
Theorem Sub_Add_same (t u : MonoTime) (d : Duration) :
  Sub (Add t d) (Add u d) = Sub t u.
Proof.
  unfold Sub, Add, sub, add.
  rewrite wrap64_sub_l, wrap64_sub_r. f_equal. lia.
Qed.

(** X4.  Two durations can be added to a time in either order. *)
Theorem Add_Add_swap (t : MonoTime) (d1 d2 : Duration) :
  Add (Add t d1) d2 = Add (Add t d2) d1.
Proof.
  unfold Add, add. rewrite !wrap64_add_l. f_equal. lia.
Qed.

(** X5.  [Add] gives the exact sum precisely when that sum is an [int64],
    and [Sub] the exact difference precisely when that difference is one;
    in every other case the result has wrapped. *)
Theorem Add_Sub_exact_iff (t u : MonoTime) (d : Duration) :
  (Add t d = t + d <-> in_int64 (t + d)) /\
  (Sub t u = t - u <-> in_int64 (t - u)).
Proof.
  unfold Add, Sub, add, sub. split; split; intros H.
  - rewrite <- H. apply wrap64_range.
  - now apply wrap64_small.
  - rewrite <- H. apply wrap64_range.
  - now apply wrap64_small.
Qed.

(** ** Truncate and Round *)

(** X6.  [Truncate] is idempotent for every [d], and for [d > 0] it leaves
    [t] alone exactly when [t] is already a multiple of [d]. *)
Theorem Truncate_idempotent (t : MonoTime) (d : Duration) :
  in_int64 t ->
  Truncate (Truncate t d) d = Truncate t d /\
  (0 < d -> (Truncate t d = t <-> Z.rem t d = 0)).
Proof.
  intros Ht. split.
  - destruct (Z_lt_le_dec 0 d) as [Hd|Hd].
    + rewrite (Truncate_pos t d Ht Hd), sub_rem_quot.
      assert (Hq : in_int64 (d * Z.quot t d)).
      { rewrite <- sub_rem_quot. destruct (rem_bounds t d Hd) as [Hp Hn].
        int64_consts. destruct (Z_le_gt_dec 0 t);
          [specialize (Hp ltac:(lia)) | specialize (Hn ltac:(lia))]; lia. }
      rewrite (Truncate_pos _ d Hq Hd). unfold rem.
      rewrite rem_multiple by assumption. lia.
    + unfold Truncate. destruct (Z.leb_spec d 0); [reflexivity | lia].
  - intros Hd. rewrite (Truncate_pos t d Ht Hd). unfold rem. lia.
Qed.

Lemma Truncate_idempotent_witness :
  Truncate (Truncate (-17) 5) 5 = Truncate (-17) 5 /\
  (0 < 5 -> (Truncate (-17) 5 = -17 <-> Z.rem (-17) 5 = 0)).
Proof. apply (Truncate_idempotent (-17) 5). int64_consts. lia. Defined.

(** X7.  [Truncate] keeps the order of times: for [d > 0], an earlier time
    never truncates to a later multiple than a later time does. *)
Theorem Truncate_monotone (t1 t2 : MonoTime) (d : Duration) :
  in_int64 t1 -> in_int64 t2 -> 0 < d -> t1 <= t2 ->
  Truncate t1 d <= Truncate t2 d.
Proof.
  intros H1 H2 Hd Hle.
  rewrite (Truncate_pos t1 d H1 Hd), (Truncate_pos t2 d H2 Hd), !sub_rem_quot.
  apply Z.mul_le_mono_nonneg_l; [lia|].
  now apply Z.quot_le_mono.
Qed.

Lemma Truncate_monotone_witness : Truncate (-13) 10 <= Truncate 27 10.
Proof.
  apply (Truncate_monotone (-13) 27 10); int64_consts; lia.
Defined.

(** X8.  [MonoDuration.Truncate] is odd: truncating the opposite duration
    gives the opposite result, for every [m]. *)
Theorem MonoDuration_Truncate_odd (d m : Duration) :
  in_int64 d -> in_int64 (- d) ->
  MonoDuration.Truncate (- d) m = - MonoDuration.Truncate d m.
Proof.
  intros Hd Hnd. unfold MonoDuration.Truncate.
  destruct (Z_lt_le_dec 0 m) as [Hm|Hm].
  - rewrite (Truncate_pos d m Hd Hm), (Truncate_pos (- d) m Hnd Hm).
    rewrite !sub_rem_quot, Z.quot_opp_l by lia. lia.
  - unfold Truncate. destruct (Z.leb_spec m 0); [reflexivity | lia].
Qed.

Lemma MonoDuration_Truncate_odd_witness :
  MonoDuration.Truncate (- 13) 10 = - MonoDuration.Truncate 13 10.
Proof.
  apply (MonoDuration_Truncate_odd 13 10); int64_consts; lia.
Defined.

(** [Round] on a time that is not negative, when nothing wraps. *)
Lemma Round_nonneg_value (t d : Z) :
  0 <= t -> 0 < d -> t + d <= max_int64 ->
  Round t d = d * Z.quot t d + (if rem t d * 2 <=? d then 0 else d).
Proof.
  intros Ht Hd Hmax.
  destruct (rem_bounds t d Hd) as [Hp _]. specialize (Hp Ht).
  assert (Hmul : mul (rem t d) 2 = rem t d * 2).
  { unfold mul. apply wrap64_small. int64_consts. lia. }
  rewrite <- sub_rem_quot.
  unfold Round. destruct (Z.leb_spec d 0); [lia|]. cbv zeta. rewrite Hmul.
  destruct (Z.leb_spec (rem t d * 2) d).
  - rewrite Add_neg_rem by (int64_consts; lia). lia.
  - unfold Add, add, sub. rewrite wrap64_add_r.
    rewrite wrap64_small by (int64_consts; lia). lia.
Qed.



(** X10.  A time that is not positive is never rounded away from zero: for
    [t <= 0] and [0 < d <= 2^62] the test [r*2 <= d] always holds, so
    [Round t d] is [Truncate t d], between [t] and [0], however close [t]
    is to the multiple below it. *)
Theorem Round_nonpositive_toward_zero (t : MonoTime) (d : Duration) :
  in_int64 t -> t <= 0 -> 0 < d -> d <= 4611686018427387904 ->
  Round t d = Truncate t d /\ t <= Round t d <= 0.
Proof.
  intros Ht Hneg Hd Hbig.
  destruct (rem_bounds t d Hd) as [_ Hn]. specialize (Hn Hneg).
  assert (Hmul : mul (rem t d) 2 = rem t d * 2).
  { unfold mul. apply wrap64_small. int64_consts. lia. }
  assert (E : Round t d = Truncate t d).
  { unfold Round, Truncate. destruct (Z.leb_spec d 0); [lia|]. cbv zeta.
    rewrite Hmul. destruct (Z.leb_spec (rem t d * 2) d); [reflexivity | lia]. }
  split; [assumption|].
  rewrite E, (Truncate_pos t d Ht Hd). lia.
Qed.

Lemma Round_nonpositive_toward_zero_witness :
  Round (-19) 10 = Truncate (-19) 10 /\ -19 <= Round (-19) 10 <= 0.
Proof.
  apply (Round_nonpositive_toward_zero (-19) 10); [int64_consts; lia | lia | lia | lia].
Defined.

(** X11.  For a time [t >= 0] with [t + d <= max_int64], no multiple of
    [d] is nearer to [t] than [Round t d]. *)
Theorem Round_nearest_multiple (t : MonoTime) (d : Duration) (k : Z) :
  0 <= t -> 0 < d -> t + d <= max_int64 ->
  Z.abs (Round t d - t) <= Z.abs (d * k - t).
Proof.
  intros Ht Hd Hmax. rewrite (Round_nonneg_value t d Ht Hd Hmax).
  destruct (rem_bounds t d Hd) as [Hp _]. specialize (Hp Ht).
  pose proof (sub_rem_quot t d) as Hq.
  set (q := Z.quot t d) in *. set (r := rem t d) in *.
  assert (Hk : k <= q \/ q + 1 <= k) by lia.
  destruct (Z.leb_spec (r * 2) d); destruct Hk as [Hk|Hk].
  - assert (d * k <= d * q) by (apply Z.mul_le_mono_nonneg_l; lia). lia.
  - assert (d * (q + 1) <= d * k) by (apply Z.mul_le_mono_nonneg_l; lia). lia.
  - assert (d * k <= d * q) by (apply Z.mul_le_mono_nonneg_l; lia). lia.
  - assert (d * (q + 1) <= d * k) by (apply Z.mul_le_mono_nonneg_l; lia). lia.
Qed.

Lemma Round_nearest_multiple_witness :
  Z.abs (Round 17 10 - 17) <= Z.abs (10 * 1 - 17).
Proof.
  apply (Round_nearest_multiple 17 10 1); [lia | lia | int64_consts; lia].
Defined.

(** X12.  [Round] keeps the order of times that are not negative: for
    [0 <= t1 <= t2] and [t2 + d <= max_int64], [Round t1 d <= Round t2 d]. *)
Theorem Round_monotone (t1 t2 : MonoTime) (d : Duration) :
  0 <= t1 -> t1 <= t2 -> 0 < d -> t2 + d <= max_int64 ->
  Round t1 d <= Round t2 d.
Proof.
  intros H1 Hle Hd Hmax.
  rewrite (Round_nonneg_value t1 d H1 Hd ltac:(lia)).
  rewrite (Round_nonneg_value t2 d ltac:(lia) Hd Hmax).
  destruct (rem_bounds t1 d Hd) as [Hp1 _]. specialize (Hp1 H1).
  destruct (rem_bounds t2 d Hd) as [Hp2 _]. specialize (Hp2 ltac:(lia)).
  pose proof (sub_rem_quot t1 d) as Hq1. pose proof (sub_rem_quot t2 d) as Hq2.
  pose proof (Z.quot_le_mono t1 t2 d Hd Hle) as Hq.
  set (q1 := Z.quot t1 d) in *. set (q2 := Z.quot t2 d) in *.
  set (r1 := rem t1 d) in *. set (r2 := rem t2 d) in *.
  assert (Hcase : q1 = q2 \/ q1 + 1 <= q2) by lia.
  destruct Hcase as [E|Hlt].
  - rewrite E in *.
    destruct (Z.leb_spec (r1 * 2) d); destruct (Z.leb_spec (r2 * 2) d); lia.
  - assert (d * (q1 + 1) <= d * q2) by (apply Z.mul_le_mono_nonneg_l; lia).
    destruct (Z.leb_spec (r1 * 2) d); destruct (Z.leb_spec (r2 * 2) d); lia.
Qed.

Lemma Round_monotone_witness : Round 14 10 <= Round 16 10.
Proof.
  apply (Round_monotone 14 16 10); [lia | lia | lia | int64_consts; lia].
Defined.

(** ** Now *)

Lemma Nano_exact (ts : Timespec) :
  normalized ts -> Sec ts * 1000000000 + Nsec ts <= max_int64 ->
  Nano ts = Sec ts * 1000000000 + Nsec ts.
Proof.
  intros [Hs Hn] Hmax. unfold Nano, add, mul.
  rewrite (wrap64_small (Sec ts * 1000000000)) by (int64_consts; lia).
  apply wrap64_small. int64_consts. lia.
Qed.

(** X13.  When [ClockGettime] succeeds with a normalized [Timespec] whose
    nanosecond count fits an [int64], both declarations of [Now] return
    exactly [Sec * 1e9 + Nsec]; that time is never negative, so it is never
    the [-1] that [Reset] and [NewTicker] pass for "no deadline". *)
Theorem Now_exact_nonnegative (ClockGettime : clock_gettime) (ts : Timespec) :
  ClockGettime new_Timespec = (ts, None) ->
  normalized ts -> Sec ts * 1000000000 + Nsec ts <= max_int64 ->
  MonoTimeDecl.Now ClockGettime = Returns (Sec ts * 1000000000 + Nsec ts) /\
  TimeDecl.Now ClockGettime = Returns (Sec ts * 1000000000 + Nsec ts) /\
  0 <= Sec ts * 1000000000 + Nsec ts.
Proof.
  intros Hk Hnorm Hmax. unfold MonoTimeDecl.Now, TimeDecl.Now. rewrite Hk.
  rewrite (Nano_exact ts Hnorm Hmax). destruct Hnorm as [Hs Hn].
  repeat split; lia.
Qed.

Lemma Now_exact_nonnegative_witness :
  let k : clock_gettime := fun _ => ({| Sec := 12; Nsec := 345 |}, None) in
  MonoTimeDecl.Now k = Returns (12 * 1000000000 + 345) /\
  TimeDecl.Now k = Returns (12 * 1000000000 + 345) /\
  0 <= 12 * 1000000000 + 345.
Proof.
  apply (Now_exact_nonnegative
           (fun _ => ({| Sec := 12; Nsec := 345 |}, None))
           {| Sec := 12; Nsec := 345 |});
    [reflexivity | unfold normalized; simpl; lia | simpl; int64_consts; lia].
Defined.

(** X14.  [Nano] keeps the order of the clock: for normalized [Timespec]s
    whose nanosecond counts fit an [int64], one is at or before the other
    exactly when its [Nano] is at most the other's, and equal [Nano]s come
    from equal [Timespec]s. *)
Theorem Nano_order (a b : Timespec) :
  normalized a -> normalized b ->
  Sec a * 1000000000 + Nsec a <= max_int64 ->
  Sec b * 1000000000 + Nsec b <= max_int64 ->
  (ts_le a b <-> Nano a <= Nano b) /\ (Nano a = Nano b -> a = b).
Proof.
  intros Ha Hb Hma Hmb.
  rewrite (Nano_exact a Ha Hma), (Nano_exact b Hb Hmb).
  destruct Ha as [Hsa Hna], Hb as [Hsb Hnb]. unfold ts_le.
  split; [split|].
  - intros [H|[H1 H2]]; lia.
  - intros H. lia.
  - intros H. destruct a as [sa na], b as [sb nb]. simpl in *.
    assert (sa = sb) by lia. assert (na = nb) by lia. now subst.
Qed.

Lemma Nano_order_witness :
  (ts_le {| Sec := 1; Nsec := 999999999 |} {| Sec := 2; Nsec := 0 |} <->
   Nano {| Sec := 1; Nsec := 999999999 |} <= Nano {| Sec := 2; Nsec := 0 |}) /\
  (Nano {| Sec := 1; Nsec := 999999999 |} = Nano {| Sec := 2; Nsec := 0 |} ->
   {| Sec := 1; Nsec := 999999999 |} = {| Sec := 2; Nsec := 0 |}).
Proof.
  apply (Nano_order {| Sec := 1; Nsec := 999999999 |} {| Sec := 2; Nsec := 0 |});
    try (unfold normalized; simpl; lia); simpl; int64_consts; lia.
Defined.

(** ** The goroutine of [start], continued *)

(** X16.  The ticks sent are those reported by the reads before the first
    failure: the buffer of the failed read, which still holds the count of
    an earlier firing, is not delivered again. *)
Theorem start_ticks_before_failure
        (hostUint64 : list byte -> N)
        (ok rest : list read_result) (r : read_result) (e : error) :
  Forall succeeded ok -> rd_err r = Some e ->
  fst (start hostUint64 (ok ++ r :: rest)) = ticks hostUint64 ok.
Proof.
  intros Hok He. unfold start.
  rewrite (start_loop_succeeded _ _ _ _ Hok), (start_loop_failure _ _ _ _ _ He).
  reflexivity.
Qed.

Lemma start_ticks_before_failure_witness :
  fst (start le_uint64
         ([ {| rd_buf := [x02]; rd_err := None |} ] ++
          {| rd_buf := [x02]; rd_err := Some EOF |} :: [])) =
  ticks le_uint64 [ {| rd_buf := [x02]; rd_err := None |} ].
Proof.
  apply (start_ticks_before_failure le_uint64
           [ {| rd_buf := [x02]; rd_err := None |} ] []
           {| rd_buf := [x02]; rd_err := Some EOF |} EOF);
    [repeat constructor | reflexivity].
Defined.

(** X17.  After reads that all succeeded the goroutine carries on as a
    fresh one would, with the ticks of those reads already sent. *)
Theorem start_resumes
        (hostUint64 : list byte -> N) (ok more : list read_result) :
  Forall succeeded ok ->
  start hostUint64 (ok ++ more) =
  ((ticks hostUint64 ok + fst (start hostUint64 more))%N,
   snd (start hostUint64 more)).
Proof.
  intros Hok. unfold start. rewrite (start_loop_succeeded _ _ _ _ Hok).
  assert (H : forall reads s,
             start_loop hostUint64 reads s =
             ((s + fst (start_loop hostUint64 reads 0%N))%N,
              snd (start_loop hostUint64 reads 0%N))).
  { induction reads as [|r reads IH]; intros s; simpl.
    - now rewrite N.add_0_r.
    - destruct (is_ErrClosed (rd_err r)); [simpl; now rewrite N.add_0_r|].
      destruct (rd_err r); [simpl; now rewrite N.add_0_r|].
      rewrite IH, (IH (hostUint64 (rd_buf r))). simpl. f_equal. lia. }
  rewrite H. f_equal.
Qed.

Lemma start_resumes_witness :
  start le_uint64 ([ {| rd_buf := [x02]; rd_err := None |} ] ++
                   [ {| rd_buf := [x03]; rd_err := None |} ]) =
  ((ticks le_uint64 [ {| rd_buf := [x02]; rd_err := None |} ] +
    fst (start le_uint64 [ {| rd_buf := [x03]; rd_err := None |} ]))%N,
   snd (start le_uint64 [ {| rd_buf := [x03]; rd_err := None |} ])).
Proof.
  apply (start_resumes le_uint64 [ {| rd_buf := [x02]; rd_err := None |} ]
                       [ {| rd_buf := [x03]; rd_err := None |} ]).
  repeat constructor.
Defined.

(** ** Goroutines calling [Stop], continued *)

Lemma count_two_nth (f : goroutine -> nat) (l : list goroutine)
      (i j : nat) (g g' : goroutine) :
  i <> j -> nth_error l i = Some g -> nth_error l j = Some g' ->
  (f g + f g' <= count f l)%nat.
Proof.
  assert (Hone : forall l i g, nth_error l i = Some g -> (f g <= count f l)%nat).
  { intros l0 i0 g0 H0.
    destruct (nth_error_update_split i0 l0 g0 H0) as (l1 & l2 & -> & _).
    rewrite count_split. lia. }
  revert i j. induction l as [|a l IH]; intros [|i] [|j] Hij Hi Hj;
    simpl in Hi, Hj; try discriminate; try congruence.
  - injection Hi as ->. pose proof (Hone l j g' Hj).
    unfold count in *. simpl. lia.
  - injection Hj as ->. pose proof (Hone l i g Hi).
    unfold count in *. simpl. lia.
  - assert (Hij' : i <> j) by congruence.
    pose proof (IH i j Hij' Hi Hj). unfold count in *. simpl. lia.
Qed.

(** X18.  Mutual exclusion inside [sync.Once]: in every ticker reached from
    a fresh one, two goroutines past [Lock] and not yet past [Unlock] are
    the same goroutine, and the mutex is then held. *)
Theorem Stop_mutual_exclusion
        (calls : list positive) (sched : list nat) (t : ticker)
        (i j : nat) (g g' : goroutine) :
  Stop_run sched (spawn calls) = Some t ->
  nth_error (callers t) i = Some g -> nth_error (callers t) j = Some g' ->
  in_crit g = 1%nat -> in_crit g' = 1%nat ->
  i = j /\ once_m t = true.
Proof.
  intros Hrun Hi Hj Hg Hg'.
  destruct (run_Inv sched _ t (Inv_spawn calls) Hrun) as ([Hm _ _ _] & _ & _).
  assert (Hle : (count in_crit (callers t) <= 1)%nat)
    by (rewrite Hm; destruct (once_m t); lia).
  split.
  - destruct (Nat.eq_dec i j) as [E|Hne]; [assumption|].
    pose proof (count_two_nth in_crit _ i j g g' Hne Hi Hj). lia.
  - destruct (once_m t); [reflexivity|].
    pose proof (count_zero_nth in_crit _ i g Hm Hi). lia.
Qed.

Lemma Stop_mutual_exclusion_witness : (0 = 0)%nat /\ true = true.
Proof.
  apply (Stop_mutual_exclusion [1; 1]%positive [0; 1; 0; 0]%nat
           {| once_done := false; once_m := true; fd_closes := 0;
              callers := [ {| g_pc := AtCall; g_todo := 0 |};
                           {| g_pc := AtLock; g_todo := 0 |} ] |}
           0%nat 0%nat {| g_pc := AtCall; g_todo := 0 |}
           {| g_pc := AtCall; g_todo := 0 |}); reflexivity.
Defined.

(** X19.  No [Stop] returns before the handle is closed: in every ticker
    reached from a fresh one, if a goroutine has returned from its calls
    then [done] is set and [t.fd.Close()] has run, once. *)
Theorem Stop_returns_after_close
        (calls : list positive) (sched : list nat) (t : ticker)
        (i : nat) (g : goroutine) :
  Stop_run sched (spawn calls) = Some t ->
  nth_error (callers t) i = Some g -> g_pc g = AtReturned ->
  once_done t = true /\ fd_closes t = 1%nat.
Proof.
  intros Hrun Hi Hg.
  destruct (run_Inv sched _ t (Inv_spawn calls) Hrun) as ([_ Hc _ Hp] & _ & _).
  assert (Hd : once_done t = true).
  { rewrite Forall_forall in Hp. apply (Hp g).
    - now apply nth_error_In in Hi.
    - unfold past_store. now rewrite Hg. }
  split; [assumption | now rewrite Hd in Hc].
Qed.

Lemma Stop_returns_after_close_witness : true = true /\ 1%nat = 1%nat.
Proof.
  apply (Stop_returns_after_close [1; 1]%positive [0; 1; 0; 0; 0; 0; 0]%nat
           {| once_done := true; once_m := false; fd_closes := 1;
              callers := [ {| g_pc := AtReturned; g_todo := 0 |};
                           {| g_pc := AtLock; g_todo := 0 |} ] |}
           0%nat {| g_pc := AtReturned; g_todo := 0 |}); reflexivity.
Defined.

Lemma Stop_run_fast_path (k : nat) :
  Stop_run (repeat 0%nat (S k))
           {| once_done := true; once_m := false; fd_closes := 1;
              callers := [ {| g_pc := AtLoad; g_todo := k |} ] |} =
  Some (stopped_ticker 1).
Proof.
  induction k as [|k IH]; [reflexivity|].
  change (repeat 0%nat (S (S k))) with (0%nat :: repeat 0%nat (S k)).
  cbn [Stop_run]. exact IH.
Qed.

(** X20.  A goroutine that calls [Stop] [n] times with nobody else moving
    takes six atomic actions for the first call and one for each later
    call, and leaves the handle closed once and the mutex free. *)
Theorem Stop_sequential_cost (n : positive) :
  Stop_run (repeat 0%nat (5 + Pos.to_nat n)) (spawn [n]) =
  Some (stopped_ticker 1).
Proof.
  unfold spawn. simpl map.
  destruct (Pos2Nat.is_succ n) as [k Hk]. rewrite Hk. simpl Nat.pred.
  destruct k as [|k]; [reflexivity|].
  change (5 + S (S k))%nat with (6 + S k)%nat.
  rewrite (repeat_app 0%nat 6 (S k)).
  assert (Happ : forall s1 s2 a b,
             Stop_run s1 a = Some b -> Stop_run (s1 ++ s2) a = Stop_run s2 b).
  { induction s1 as [|x s1 IH1]; intros s2 a b H; simpl in *.
    - now injection H as ->.
    - destruct (Stop_step x a); [now apply IH1 | discriminate]. }
  rewrite (Happ _ _ _ {| once_done := true; once_m := false; fd_closes := 1;
                         callers := [ {| g_pc := AtLoad; g_todo := k |} ] |});
    [apply Stop_run_fast_path | reflexivity].
Qed.

Lemma update_length {A : Type} (i : nat) (x : A) (l : list A) :
  List.length (update i x l) = List.length l.
Proof.
  revert i. induction l as [|a l IH]; intros [|i]; simpl; try reflexivity.
  now rewrite IH.
Qed.

Lemma Forall_update {A : Type} (Q : A -> Prop) (i : nat) (x : A) (l : list A) :
  Forall Q l -> Q x -> Forall Q (update i x l).
Proof.
  intros Hl Hx. revert i. induction Hl as [|a l Ha Hl IH]; intros [|i]; simpl;
    constructor; auto.
Qed.

Lemma Stop_step_keeps (i : nat) (t t' : ticker) :
  Stop_step i t = Some t' ->
  (once_done t = true -> once_done t' = true) /\
  (fd_closes t <= fd_closes t')%nat /\
  List.length (callers t') = List.length (callers t) /\
  (Forall (fun g => g_pc g = AtReturned -> g_todo g = O) (callers t) ->
   Forall (fun g => g_pc g = AtReturned -> g_todo g = O) (callers t')).
Proof.
  unfold Stop_step. destruct (nth_error (callers t) i) as [g|]; [|discriminate].
  assert (Hret : g_pc (ret g) = AtReturned -> g_todo (ret g) = O)
    by (unfold ret; destruct (g_todo g); simpl; [reflexivity | discriminate]).
  destruct (g_pc g); try discriminate;
    try (destruct (once_m t); try discriminate);
    intros H; injection H as <-; simpl;
    (split; [auto | split; [lia | split; [apply update_length|] ] ]);
    intros HQ; apply Forall_update; try assumption;
    destruct (once_done t); simpl; try assumption; discriminate.
Qed.

Lemma Stop_run_returned_todo (sched : list nat) (t t' : ticker) :
  Stop_run sched t = Some t' ->
  Forall (fun g => g_pc g = AtReturned -> g_todo g = O) (callers t) ->
  Forall (fun g => g_pc g = AtReturned -> g_todo g = O) (callers t').
Proof.
  revert t. induction sched as [|i sched IH]; intros t H HQ; simpl in H.
  - now injection H as <-.
  - destruct (Stop_step i t) as [t1|] eqn:Hs; [|discriminate].
    destruct (Stop_step_keeps i t t1 Hs) as (_ & _ & _ & Hq).
    exact (IH t1 H (Hq HQ)).
Qed.

Lemma all_returned_repeat (l : list goroutine) :
  forallb has_returned l = true ->
  Forall (fun g => g_pc g = AtReturned -> g_todo g = O) l ->
  l = repeat {| g_pc := AtReturned; g_todo := 0 |} (List.length l) /\
  count in_crit l = O.
Proof.
  induction l as [|g l IH]; intros Hall HQ; simpl in *; [split; reflexivity|].
  apply andb_true_iff in Hall as [Hg Hall].
  destruct (IH Hall (Forall_inv_tail HQ)) as [El Ec].
  apply Forall_inv in HQ. unfold has_returned in Hg.
  destruct g as [p k]. simpl in *.
  destruct p; try discriminate. rewrite (HQ eq_refl). split.
  - now rewrite <- El.
  - unfold count in *. simpl. exact Ec.
Qed.

(** X22.  The order of the atomic actions does not show in the end: every
    run of a fresh ticker that ends with all calls returned ends in the
    same ticker, with [done] set, the mutex free and the handle closed
    once. *)
Theorem Stop_final_state
        (calls : list positive) (sched : list nat) (t : ticker) :
  calls <> [] ->
  Stop_run sched (spawn calls) = Some t -> all_returned t = true ->
  t = stopped_ticker (List.length calls).
Proof.
  intros Hne Hrun Hall.
  destruct (run_Inv sched _ t (Inv_spawn calls) Hrun) as (HI & _ & Hlen).
  assert (HQ : Forall (fun g => g_pc g = AtReturned -> g_todo g = O) (callers t)).
  { apply (Stop_run_returned_todo sched _ t Hrun).
    apply Forall_forall. intros g Hg. simpl in Hg.
    apply in_map_iff in Hg as (n & <- & _). discriminate. }
  destruct (all_returned_repeat _ Hall HQ) as [El Ec].
  assert (Hnil : callers t <> []).
  { intros E. rewrite E in Hlen. simpl in Hlen. rewrite length_map in Hlen.
    destruct calls; [congruence | discriminate]. }
  pose proof (returned_closed_once t HI Hnil Hall) as Hcl.
  destruct HI as [Hm Hc _ _].
  rewrite Ec in Hm.
  simpl in Hlen. rewrite length_map in Hlen. rewrite Hlen in El.
  assert (Hz : forall n, count in_store (repeat {| g_pc := AtReturned; g_todo := 0 |} n) = O)
    by (induction n; [reflexivity | assumption]).
  destruct t as [dn m cl pool]. simpl in *. unfold stopped_ticker.
  destruct m; [discriminate|].
  rewrite Hcl in Hc. rewrite Hcl. clear Hcl.
  destruct dn; [now rewrite El|].
  rewrite El, Hz in Hc. discriminate.
Qed.

Lemma Stop_final_state_witness :
  {| once_done := true; once_m := false; fd_closes := 1;
     callers := [ {| g_pc := AtReturned; g_todo := 0 |};
                  {| g_pc := AtReturned; g_todo := 0 |} ] |} =
  stopped_ticker (List.length [1; 2]%positive).
Proof.
  apply (Stop_final_state [1; 2]%positive [0; 1; 0; 0; 0; 0; 0; 1; 1; 1; 1]%nat);
    [discriminate | reflexivity | reflexivity].
Defined.
